(** * Ring seek bar of [src/src/VideoPlayer.tsx]

    Shallow embedding of the geometry and pointer-projection logic of the
    [VideoPlayer] component.  JavaScript numbers are modelled as exact
    rationals [Q]; the browser's [SVGPathElement.getPointAtLength] is an
    external collaborator and is kept abstract as a function [pointAt]. *)

From Stdlib Require Import QArith Qminmax Qround Qabs Qreals Lqa List Lia Bool ZArith.
From Stdlib Require Import Reals.
Import ListNotations.

Open Scope Q_scope.

(** ** JavaScript helpers *)

(** [a < b] on numbers. *)
Definition Qltb (a b : Q) : bool := negb (Qle_bool b a).

(** [Math.max(a, b)] and [Math.min(a, b)]. *)
Definition jsmax (a b : Q) : Q := if Qltb a b then b else a.
Definition jsmin (a b : Q) : Q := if Qltb b a then b else a.

(** [Math.min(a, b, c)]. *)
Definition jsmin3 (a b c : Q) : Q := jsmin (jsmin a b) c.

(** [x || 0] for a number read from the media element: [None] is [NaN];
    both [NaN] and [0] are falsy and give [0]. *)
Definition or0 (x : option Q) : Q :=
  match x with
  | Some v => if Qeq_bool v 0 then 0 else v
  | None => 0
  end.

(** [Math.sqrt(d2) <= tol] for a squared distance [d2 >= 0]: see
    [sqrt_le_bool_spec] for the link with the real square root. *)
Definition sqrt_le_bool (d2 tol : Q) : bool :=
  Qle_bool 0 tol && Qle_bool d2 (tol * tol).

(** ** PathBuilder: the memoised [d] *)

(** One command of the SVG path description, before [join(" ")]. *)
Inductive seg : Type :=
| SegM (x y : Q)                       (* M x y *)
| SegL (x y : Q)                       (* L x y *)
| SegA (rx ry : Q) (x y : Q).          (* A rx ry 0 0 1 x y *)

(** [pad = Math.ceil(barWidth / 2) + 2] *)
Definition pad (barWidth : Q) : Q := inject_Z (Qceiling (barWidth / 2)) + 2.

(** The effective radius [r = Math.min(radius, w / 2, h / 2)]. *)
Definition eff_radius (size radius barWidth : Q) : Q :=
  let p := pad barWidth in
  let w := size - p * 2 in
  let h := size - p * 2 in
  jsmin3 radius (w / 2) (h / 2).

Definition d (sv radius barWidth : Q) : list seg :=
  let p := pad barWidth in
  let w := sv - p * 2 in
  let h := sv - p * 2 in
  let r := jsmin3 radius (w / 2) (h / 2) in
  let x0 := p + w / 2 in
  let y0 := p in
  [ SegM x0 y0;
    SegL (p + w - r) y0;
    SegA r r (p + w) (p + r);
    SegL (p + w) (p + h - r);
    SegA r r (p + w - r) (p + h);
    SegL (p + r) (p + h);
    SegA r r p (p + h - r);
    SegL p (p + r);
    SegA r r (p + r) p;
    SegL x0 y0 ].

(** The end point of a command. *)
Definition seg_end (s : seg) : Q * Q :=
  match s with
  | SegM x y | SegL x y | SegA _ _ x y => (x, y)
  end.

(** The radii of the arc commands. *)
Definition arc_radii (ss : list seg) : list (Q * Q) :=
  flat_map (fun s => match s with SegA rx ry _ _ => [(rx, ry)] | _ => [] end) ss.

(** ** SeekProjector: the scan of [handlePointerMove] *)

Definition samples : nat := 480.

(** The sample indices [i = 0, 1, ..., samples] of the [for] loop. *)
Definition sample_indices : list nat := seq 0 (S samples).

(** [l = (i / samples) * pathLen] *)
Definition sample_len (pathLen : Q) (i : nat) : Q :=
  (inject_Z (Z.of_nat i) / inject_Z (Z.of_nat samples)) * pathLen.

(** [dx * dx + dy * dy] with [dx = pt.x - x], [dy = pt.y - y]. *)
Definition dist2 (pt : Q * Q) (x y : Q) : Q :=
  let dx := fst pt - x in
  let dy := snd pt - y in
  dx * dx + dy * dy.

(** [d2 < bestDist2], where [None] is [Number.POSITIVE_INFINITY]. *)
Definition lt_best (d2 : Q) (best : option Q) : bool :=
  match best with
  | None => true
  | Some b => Qltb d2 b
  end.

(** [Math.max(barWidth, 24)] *)
Definition HOVER_TOL (barWidth : Q) : Q := jsmax barWidth 24.

Section Projector.

(** [p.getPointAtLength], supplied by the rendering surface. *)
Variable pointAt : Q -> Q * Q.

(** One iteration of the loop body; the accumulator is
    [(bestLen, bestDist2)]. *)
Definition scan_step (pathLen x y : Q) (acc : Q * option Q) (i : nat)
  : Q * option Q :=
  let l := sample_len pathLen i in
  let pt := pointAt l in
  let d2 := dist2 pt x y in
  if lt_best d2 (snd acc) then (l, Some d2) else acc.

(** The whole loop, from [bestLen = 0], [bestDist2 = +Infinity]. *)
Definition scan (pathLen x y : Q) : Q * option Q :=
  fold_left (scan_step pathLen x y) sample_indices (0, None).

(** [handlePointerMove]: [hasPath] is [pathRef.current != null],
    [x], [y] the pointer position relative to the svg element, and
    [hover] the current [hoverLen]; the result is the new [hoverLen]. *)
Definition handlePointerMove (hasPath : bool) (barWidth pathLen x y : Q)
  (hover : option Q) : option Q :=
  if negb hasPath then hover else
  let '(bestLen, bestDist2) := scan pathLen x y in
  match bestDist2 with
  | Some b => if sqrt_le_bool b (HOVER_TOL barWidth) then Some bestLen else None
  | None => None   (* Math.sqrt(Infinity) <= HOVER_TOL is false *)
  end.

End Projector.

(** ** Seek commit: [seekFromHover] *)

(** Effect of a pointer-down: nothing, or
    [videoRef.current.currentTime = t], [play()] and [setIsPlaying(true)]. *)
Inductive seek_effect : Type :=
| SeekNoop
| SeekTo (t : Q)
| SeekThrows.   (* assigning a non-finite currentTime raises a TypeError *)

(** [hasVideo] is [videoRef.current != null]; [duration] is the stored
    state, never [NaN] (it is read through [|| 0]), so [!duration] holds
    exactly when it is [0].  When [pathLen] is [0], [hoverLen / pathLen] is
    [NaN] (for [hoverLen = 0]) or an infinity, and the [Math.min] /
    [Math.max] chain is evaluated on it as JavaScript does. *)
Definition seekFromHover (hoverLen : option Q) (hasVideo : bool)
  (duration pathLen : Q) : seek_effect :=
  match hoverLen with
  | None => SeekNoop
  | Some h =>
      if negb hasVideo || Qeq_bool duration 0 then SeekNoop else
      if Qeq_bool pathLen 0 then
        if Qeq_bool h 0 then SeekThrows                        (* NaN *)
        else if Qltb 0 (h * duration)
        then SeekTo (jsmax 0 (duration - 1 / 100))             (* +Infinity *)
        else SeekTo 0                                           (* -Infinity *)
      else
      let frac := h / pathLen in
      SeekTo (jsmax 0 (jsmin (duration * frac) (duration - 1 / 100)))
  end.

(** ** Playback state and its event handlers *)

(** The component state fed by the media element. *)
Record player := mkPlayer {
  isPlaying : bool;
  duration : Q;
  current : Q
}.

(** [useState(false)], [useState(0)], [useState(0)]. *)
Definition player_init : player := mkPlayer false 0 0.

(** Notifications of the media element; [None] stands for [NaN]. *)
Inductive media_event : Type :=
| Loaded (vd : option Q)      (* loadedmetadata, reading v.duration *)
| TimeUpdate (vt : option Q)  (* timeupdate, reading v.currentTime *)
| Ended.                      (* ended *)

(** [onLoaded], [onTime] and [onEnd]. *)
Definition on_event (s : player) (ev : media_event) : player :=
  match ev with
  | Loaded vd => mkPlayer (isPlaying s) (or0 vd) (current s)
  | TimeUpdate vt => mkPlayer (isPlaying s) (duration s) (or0 vt)
  | Ended => mkPlayer false (duration s) (current s)
  end.

Definition run_events (evs : list media_event) : player :=
  fold_left on_event evs player_init.

(** [const progress = duration > 0 ? current / duration : 0] *)
Definition progress (s : player) : Q :=
  if Qltb 0 (duration s) then current s / duration s else 0.

(** ** Progress stroke descriptor [redDash] *)

(** [x.toFixed(2)], as the number the produced decimal string denotes:
    the integer [n] closest to [100 * |x|], the larger one on a tie. *)
Definition toFixed2 (x : Q) : Q :=
  if Qltb x 0
  then - (inject_Z (Qfloor (- x * 100 + 1 / 2)) / 100)
  else inject_Z (Qfloor (x * 100 + 1 / 2)) / 100.

(** [`${(progress * pathLen).toFixed(2)} ${pathLen.toFixed(2)}`] as the pair
    of dash lengths it denotes. *)
Definition redDash (prog pathLen : Q) : Q * Q :=
  (toFixed2 (prog * pathLen), toFixed2 pathLen).

(** A path fragment used in the concrete checks: for [size = 360],
    [barWidth = 24] the path starts at [(180, 14)] on the top edge, which is
    straight for its first [116] units, so [getPointAtLength l = (180 + l, 14)]
    there. *)
Definition top_edge_360 (l : Q) : Q * Q := (180 + l, 14).

(** ** Spec-side definitions, for comparison *)

(** [clamp(x, lo, hi)] of the spec. *)
Definition spec_clamp (x lo hi : Q) : Q := jsmax lo (jsmin x hi).

(** [progressToTime(progress, duration)] of the spec, with [ε = 0.01]. *)
Definition spec_progressToTime (prog dur : Q) : Q :=
  spec_clamp (prog * dur) 0 (dur - 1 / 100).

(** The placeholder [useState(1)] of [pathLen] before measurement. *)
Definition pathLen_placeholder : Q := 1.

(** The squared distance from the pointer to the sample [i]. *)
Definition sample_d2 (pointAt : Q -> Q * Q) (pathLen x y : Q) (i : nat) : Q :=
  dist2 (pointAt (sample_len pathLen i)) x y.

(** The smallest squared distance over all samples. *)
Definition nearest_d2 (pointAt : Q -> Q * Q) (pathLen x y : Q) : Q :=
  fold_right Qmin (sample_d2 pointAt pathLen x y 0)
    (map (sample_d2 pointAt pathLen x y) sample_indices).

(** The arc-lengths visited by the loop, in order. *)
Definition sample_lens (pathLen : Q) : list Q :=
  map (sample_len pathLen) sample_indices.

(** Contract of the media element whose duration is [Dm]: [loadedmetadata]
    reports that duration (or [NaN]), and [currentTime] lies in [[0, Dm]]
    (or is [NaN]). *)
Definition media_ok (Dm : Q) (ev : media_event) : Prop :=
  match ev with
  | Loaded vd => vd = None \/ vd = Some Dm
  | TimeUpdate vt => vt = None \/ exists t, vt = Some t /\ 0 <= t /\ t <= Dm
  | Ended => True
  end.

(** ** Hover marker and controls *)

(** [const yellowVisible = 10] *)
Definition yellowVisible : Q := 10.

(** [`${yellowVisible} ${pathLen}`] as the pair of dash lengths. *)
Definition yellowDash (pathLen : Q) : Q * Q := (yellowVisible, pathLen).

(** [hoverLen == null ? 0 : Math.max(pathLen - (hoverLen - yellowVisible / 2), 0)] *)
Definition yellowOffset (hoverLen : option Q) (pathLen : Q) : Q :=
  match hoverLen with
  | None => 0
  | Some h => jsmax (pathLen - (h - yellowVisible / 2)) 0
  end.

(** [current >= duration - 0.01 && duration > 0], the condition under which
    the play button reads "Play Again" and the Replay button is shown. *)
Definition at_end (s : player) : bool :=
  Qle_bool (duration s - 1 / 100) (current s) && Qltb 0 (duration s).

Inductive play_label : Type := LPlay | LPlayAgain | LPause.

(** The label of the main button. *)
Definition button_label (s : player) : play_label :=
  if negb (isPlaying s) then (if at_end s then LPlayAgain else LPlay) else LPause.

(** [{current >= duration - 0.01 && duration > 0 && <Replay/>}] *)
Definition replay_visible (s : player) : bool := at_end s.

(** ** The whole component as a state machine *)

(** All the state of one [VideoPlayer] instance; [c_pending] counts the
    [await v.play().catch(() => {})] of [togglePlay] and [replay] that have
    not resumed yet (each resumes with [setIsPlaying(true)]). *)
Record component := mkComponent {
  c_player : player;
  c_hover : option Q;
  c_pathLen : Q;
  c_pending : nat
}.

Definition component_init : component := mkComponent player_init None 1 0.

(** Calls made on the video element. *)
Inductive video_cmd : Type :=
| VSetTime (t : Q)   (* videoRef.current.currentTime = t *)
| VPlay              (* v.play() *)
| VPause.            (* v.pause() *)

(** What can happen to the component. *)
Inductive ui_event : Type :=
| UPointerMove (x y : Q)   (* onPointerMove, pointer relative to the svg *)
| UPointerLeave            (* onPointerLeave *)
| UPointerDown             (* onPointerDown *)
| UTogglePlay              (* click on the Play / Pause button *)
| UReplay                  (* click on the Replay button *)
| UPlaySettled             (* a pending [await v.play()] resumes *)
| UMedia (ev : media_event)
| UFrame (len : Q).        (* the animation frame: len = getTotalLength() *)

(** The fixed context: whether the refs are attached, the geometry of the
    rendered path and the [barWidth] prop. *)
Record env := mkEnv {
  e_hasVideo : bool;
  e_hasPath : bool;
  e_pointAt : Q -> Q * Q;
  e_barWidth : Q
}.

Definition set_playing (b : bool) (s : player) : player :=
  mkPlayer b (duration s) (current s).

Definition with_player (c : component) (s : player) : component :=
  mkComponent s (c_hover c) (c_pathLen c) (c_pending c).
Definition with_hover (c : component) (h : option Q) : component :=
  mkComponent (c_player c) h (c_pathLen c) (c_pending c).
Definition with_pathLen (c : component) (l : Q) : component :=
  mkComponent (c_player c) (c_hover c) l (c_pending c).
Definition with_pending (c : component) (n : nat) : component :=
  mkComponent (c_player c) (c_hover c) (c_pathLen c) n.

(** [seekFromHover] as an event handler: an assignment of a non-finite
    [currentTime] throws before [play()], so nothing happens then. *)
Definition onPointerDown (en : env) (c : component) : component * list video_cmd :=
  match seekFromHover (c_hover c) (e_hasVideo en) (duration (c_player c)) (c_pathLen c) with
  | SeekTo t => (with_player c (set_playing true (c_player c)), [VSetTime t; VPlay])
  | SeekNoop | SeekThrows => (c, [])
  end.

(** [togglePlay]: pause at once, or call [play()] and set the flag when the
    promise settles. *)
Definition togglePlay (en : env) (c : component) : component * list video_cmd :=
  if negb (e_hasVideo en) then (c, []) else
  if isPlaying (c_player c)
  then (with_player c (set_playing false (c_player c)), [VPause])
  else (with_pending c (S (c_pending c)), [VPlay]).

(** [replay] *)
Definition replay (en : env) (c : component) : component * list video_cmd :=
  if negb (e_hasVideo en) then (c, []) else
  (with_pending c (S (c_pending c)), [VSetTime 0; VPlay]).

(** One event.  Media listeners are only registered when the video element
    exists at mount; the frame callback only measures an attached path. *)
Definition ui_step (en : env) (c : component) (ev : ui_event)
  : component * list video_cmd :=
  match ev with
  | UPointerMove x y =>
      (with_hover c (handlePointerMove (e_pointAt en) (e_hasPath en) (e_barWidth en)
                       (c_pathLen c) x y (c_hover c)), [])
  | UPointerLeave => (with_hover c None, [])
  | UPointerDown => onPointerDown en c
  | UTogglePlay => togglePlay en c
  | UReplay => replay en c
  | UPlaySettled =>
      match c_pending c with
      | O => (c, [])
      | S n => (with_pending (with_player c (set_playing true (c_player c))) n, [])
      end
  | UMedia mev =>
      if e_hasVideo en then (with_player c (on_event (c_player c) mev), []) else (c, [])
  | UFrame len => if e_hasPath en then (with_pathLen c len, []) else (c, [])
  end.

(** A run of events, with the video calls made along the way. *)
Fixpoint run_ui (en : env) (c : component) (evs : list ui_event)
  : component * list video_cmd :=
  match evs with
  | [] => (c, [])
  | ev :: evs' =>
      let '(c1, o1) := ui_step en c ev in
      let '(c2, o2) := run_ui en c1 evs' in
      (c2, o1 ++ o2)
  end.

(** The length measured by a frame event is the length of a path: never
    negative. *)
Definition frame_ok (ev : ui_event) : Prop :=
  match ev with
  | UFrame len => 0 <= len
  | _ => True
  end.

(** The media element respects [media_ok Dm] and measured lengths are
    not negative. *)
Definition ui_ok (Dm : Q) (ev : ui_event) : Prop :=
  match ev with
  | UMedia mev => media_ok Dm mev
  | UFrame len => 0 <= len
  | _ => True
  end.

(** ** Walking the path description *)

(** Manhattan length of a step; for an axis-parallel [L] command it is
    the length of the line. *)
Definition step_len (a b : Q * Q) : Q :=
  Qabs (fst b - fst a) + Qabs (snd b - snd a).

(** Total length of the [L] commands, each from the previous end point. *)
Fixpoint straight_total (prev : Q * Q) (ss : list seg) : Q :=
  match ss with
  | [] => 0
  | SegL x y :: ss' => step_len prev (x, y) + straight_total (x, y) ss'
  | s :: ss' => straight_total (seg_end s) ss'
  end.

(** Every [L] command is horizontal or vertical. *)
Fixpoint lines_axis_parallel (prev : Q * Q) (ss : list seg) : Prop :=
  match ss with
  | [] => True
  | SegL x y :: ss' =>
      (x == fst prev \/ y == snd prev) /\ lines_axis_parallel (x, y) ss'
  | s :: ss' => lines_axis_parallel (seg_end s) ss'
  end.

(** Every [A] command has radii [r] and moves by exactly [r] along both
    axes: a quarter of a circle of radius [r]. *)
Fixpoint arcs_quarter (r : Q) (prev : Q * Q) (ss : list seg) : Prop :=
  match ss with
  | [] => True
  | SegA rx ry x y :: ss' =>
      rx = r /\ ry = r /\ Qabs (x - fst prev) == r /\ Qabs (y - snd prev) == r /\
      arcs_quarter r (x, y) ss'
  | s :: ss' => arcs_quarter r (seg_end s) ss'
  end.

(** ** Basic facts *)

Lemma Qltb_spec (a b : Q) : Qltb a b = true <-> a < b.
Proof.
  unfold Qltb. rewrite negb_true_iff.
  split; intro H.
  - apply Qnot_le_lt. intro H'. apply Qle_bool_iff in H'. congruence.
  - destruct (Qle_bool b a) eqn:E; [|reflexivity].
    apply Qle_bool_iff in E. exfalso. apply (Qlt_not_le _ _ H E).
Qed.

Lemma Qltb_false (a b : Q) : Qltb a b = false <-> b <= a.
Proof.
  unfold Qltb. rewrite negb_false_iff. apply Qle_bool_iff.
Qed.

Ltac qcase_ltb a b :=
  let E := fresh "E" in
  destruct (Qltb a b) eqn:E;
  [apply Qltb_spec in E | apply Qltb_false in E].

Lemma jsmin_cases (a b : Q) :
  (b < a /\ jsmin a b = b) \/ (a <= b /\ jsmin a b = a).
Proof. unfold jsmin. qcase_ltb b a; auto. Qed.

Lemma jsmax_cases (a b : Q) :
  (a < b /\ jsmax a b = b) \/ (b <= a /\ jsmax a b = a).
Proof. unfold jsmax. qcase_ltb a b; auto. Qed.

Lemma jsmin_compat (a a' b b' : Q) :
  a == a' -> b == b' -> jsmin a b == jsmin a' b'.
Proof.
  intros Ha Hb.
  destruct (jsmin_cases a b) as [[H1 ->]|[H1 ->]];
  destruct (jsmin_cases a' b') as [[H2 ->]|[H2 ->]]; lra.
Qed.

Lemma jsmax_compat (a a' b b' : Q) :
  a == a' -> b == b' -> jsmax a b == jsmax a' b'.
Proof.
  intros Ha Hb.
  destruct (jsmax_cases a b) as [[H1 ->]|[H1 ->]];
  destruct (jsmax_cases a' b') as [[H2 ->]|[H2 ->]]; lra.
Qed.

Lemma dist2_nonneg (pt : Q * Q) (x y : Q) : 0 <= dist2 pt x y.
Proof.
  unfold dist2. cbv zeta.
  assert (Hsq : forall a : Q, 0 <= a * a).
  { intro a. destruct (Qlt_le_dec a 0) as [Ha|Ha].
    - setoid_replace (a * a) with ((- a) * (- a)) by ring.
      apply Qmult_le_0_compat; lra.
    - apply Qmult_le_0_compat; lra. }
  pose proof (Hsq (fst pt - x)). pose proof (Hsq (snd pt - y)). lra.
Qed.

Lemma Q2R_zero : Q2R 0 = 0%R.
Proof. unfold Q2R. simpl. field. Qed.

(** [sqrt_le_bool] decides [Math.sqrt(d2) <= tol] over the reals. *)
Lemma sqrt_le_bool_spec (d2 tol : Q) :
  0 <= d2 ->
  sqrt_le_bool d2 tol = true <-> (sqrt (Q2R d2) <= Q2R tol)%R.
Proof.
  intros Hd. unfold sqrt_le_bool. rewrite andb_true_iff, !Qle_bool_iff.
  apply Qle_Rle in Hd. rewrite Q2R_zero in Hd.
  split.
  - intros [Ht Hle]. apply Qle_Rle in Ht, Hle.
    rewrite Q2R_zero in Ht. rewrite Q2R_mult in Hle.
    rewrite <- (sqrt_square (Q2R tol)) by exact Ht.
    apply sqrt_le_1_alt. exact Hle.
  - intros H. pose proof (sqrt_pos (Q2R d2)) as Hs.
    split.
    + apply Rle_Qle. rewrite Q2R_zero. eapply Rle_trans; eassumption.
    + apply Rle_Qle. rewrite Q2R_mult.
      rewrite <- (sqrt_sqrt (Q2R d2)) by exact Hd.
      apply Rmult_le_compat; assumption.
Qed.

Lemma fold_min_bounds (a : Q) (l : list Q) :
  fold_right Qmin a l <= a /\ Forall (fun z => fold_right Qmin a l <= z) l.
Proof.
  induction l as [|z l [IHa IHl]]; simpl.
  - split; [apply Qle_refl | constructor].
  - set (m := fold_right Qmin a l) in *.
    destruct (Q.min_spec z m) as [[H1 H2]|[H1 H2]]; split.
    + lra.
    + constructor; [lra|].
      eapply Forall_impl; [|exact IHl]. intros w Hw. simpl in Hw. lra.
    + lra.
    + constructor; [lra|].
      eapply Forall_impl; [|exact IHl]. intros w Hw. simpl in Hw. lra.
Qed.

Lemma fold_min_attained (a : Q) (l : list Q) :
  fold_right Qmin a l == a \/ exists z, In z l /\ fold_right Qmin a l == z.
Proof.
  induction l as [|z l IH]; simpl.
  - left. apply Qeq_refl.
  - set (m := fold_right Qmin a l) in *.
    destruct (Q.min_spec z m) as [[H1 H2]|[H1 H2]].
    + right. exists z. split; [left; reflexivity | exact H2].
    + destruct IH as [IH|[w [Hw IH]]].
      * left. lra.
      * right. exists w. split; [right; exact Hw | lra].
Qed.

Lemma in_sample_indices (j : nat) : In j sample_indices <-> (j <= samples)%nat.
Proof. unfold sample_indices. rewrite in_seq. lia. Qed.

Section ScanFacts.

Variable pointAt : Q -> Q * Q.
Variables pathLen x y : Q.

Local Abbreviation D := (sample_d2 pointAt pathLen x y).

(** Invariant of the loop after the iterations [0 .. n]: the accumulator
    holds the first sample of least squared distance. *)
Lemma scan_prefix_first_min (n : nat) :
  exists k, (k <= n)%nat /\
    fold_left (scan_step pointAt pathLen x y) (seq 0 (S n)) (0, None)
      = (sample_len pathLen k, Some (D k)) /\
    (forall j, (j <= n)%nat -> D k <= D j) /\
    (forall j, (j < k)%nat -> D k < D j).
Proof.
  induction n as [|n IH].
  - exists 0%nat. split; [lia|]. split; [reflexivity|].
    split; intros j Hj.
    + replace j with 0%nat by lia. apply Qle_refl.
    + lia.
  - destruct IH as [k [Hk [Hf [Hmin Hfirst]]]].
    rewrite seq_S, fold_left_app, Hf. simpl.
    unfold scan_step. simpl. fold (D (S n)).
    qcase_ltb (D (S n)) (D k).
    + exists (S n). split; [lia|]. split; [reflexivity|]. split.
      * intros j Hj. destruct (Nat.eq_dec j (S n)) as [->|Hne].
        -- apply Qle_refl.
        -- pose proof (Hmin j ltac:(lia)). lra.
      * intros j Hj. pose proof (Hmin j ltac:(lia)). lra.
    + exists k. split; [lia|]. split; [reflexivity|]. split.
      * intros j Hj. destruct (Nat.eq_dec j (S n)) as [->|Hne].
        -- exact E.
        -- apply Hmin. lia.
      * exact Hfirst.
Qed.

Lemma scan_first_min :
  exists k, (k <= samples)%nat /\
    scan pointAt pathLen x y = (sample_len pathLen k, Some (D k)) /\
    (forall j, (j <= samples)%nat -> D k <= D j) /\
    (forall j, (j < k)%nat -> D k < D j).
Proof. apply scan_prefix_first_min. Qed.

Lemma nearest_d2_is_min (k : nat) :
  (k <= samples)%nat ->
  (forall j, (j <= samples)%nat -> D k <= D j) ->
  nearest_d2 pointAt pathLen x y == D k.
Proof.
  intros Hk Hmin. unfold nearest_d2.
  destruct (fold_min_bounds (D 0) (map D sample_indices)) as [H0 Hall].
  rewrite Forall_forall in Hall.
  assert (Hle : fold_right Qmin (D 0) (map D sample_indices) <= D k).
  { apply Hall. apply in_map. apply in_sample_indices. exact Hk. }
  destruct (fold_min_attained (D 0) (map D sample_indices)) as [H|[z [Hz H]]].
  - pose proof (Hmin 0%nat ltac:(lia)). lra.
  - apply in_map_iff in Hz. destruct Hz as [j [<- Hj]].
    apply in_sample_indices in Hj. pose proof (Hmin j Hj). lra.
Qed.

End ScanFacts.

Lemma HOVER_TOL_ge_24 (barWidth : Q) : 24 <= HOVER_TOL barWidth.
Proof.
  unfold HOVER_TOL. destruct (jsmax_cases barWidth 24) as [[H ->]|[H ->]]; lra.
Qed.

(** The result of a pointer-move, from the first nearest sample [k]. *)
Lemma handlePointerMove_scan (pointAt : Q -> Q * Q) (barWidth pathLen x y : Q)
  (hover : option Q) (k : nat) :
  scan pointAt pathLen x y
    = (sample_len pathLen k, Some (sample_d2 pointAt pathLen x y k)) ->
  handlePointerMove pointAt true barWidth pathLen x y hover
    = if sqrt_le_bool (sample_d2 pointAt pathLen x y k) (HOVER_TOL barWidth)
      then Some (sample_len pathLen k) else None.
Proof.
  intros Hs. unfold handlePointerMove. rewrite Hs. reflexivity.
Qed.

(** Matching of a pointer-move, over the real square root. *)
Lemma handlePointerMove_some_iff (pointAt : Q -> Q * Q)
  (barWidth pathLen x y : Q) (hover : option Q) :
  handlePointerMove pointAt true barWidth pathLen x y hover <> None <->
  (sqrt (Q2R (nearest_d2 pointAt pathLen x y)) <= Q2R (HOVER_TOL barWidth))%R.
Proof.
  destruct (scan_first_min pointAt pathLen x y) as [k [Hk [Hs [Hmin _]]]].
  rewrite (handlePointerMove_scan _ _ _ _ _ _ k Hs).
  rewrite (Qeq_eqR _ _ (nearest_d2_is_min pointAt pathLen x y k Hk Hmin)).
  rewrite <- sqrt_le_bool_spec by apply dist2_nonneg.
  destruct (sqrt_le_bool _ _); split; intro H; congruence.
Qed.

(** A pointer exactly on the path start matches at the first sample. *)
Lemma handlePointerMove_at_start (pointAt : Q -> Q * Q)
  (barWidth pathLen x y : Q) (hover : option Q) :
  pointAt (sample_len pathLen 0) = (x, y) ->
  handlePointerMove pointAt true barWidth pathLen x y hover
    = Some (sample_len pathLen 0).
Proof.
  intros Hp.
  assert (H0 : sample_d2 pointAt pathLen x y 0 == 0).
  { unfold sample_d2, dist2. rewrite Hp. simpl. ring. }
  destruct (scan_first_min pointAt pathLen x y) as [k [Hk [Hs [Hmin Hfirst]]]].
  rewrite (handlePointerMove_scan _ _ _ _ _ _ k Hs).
  destruct k as [|k].
  - pose proof (HOVER_TOL_ge_24 barWidth) as Ht.
    unfold sqrt_le_bool. rewrite H0.
    replace (Qle_bool 0 (HOVER_TOL barWidth)) with true
      by (symmetry; apply Qle_bool_iff; lra).
    replace (Qle_bool 0 (HOVER_TOL barWidth * HOVER_TOL barWidth)) with true
      by (symmetry; apply Qle_bool_iff; apply Qmult_le_0_compat; lra).
    reflexivity.
  - pose proof (Hfirst 0%nat ltac:(lia)).
    pose proof (dist2_nonneg (pointAt (sample_len pathLen (S k))) x y).
    unfold sample_d2 in *. lra.
Qed.

(** A pointer-down on a measured, non-degenerate path. *)
Lemma seekFromHover_measured (h dur pathLen : Q) :
  ~ dur == 0 -> ~ pathLen == 0 ->
  seekFromHover (Some h) true dur pathLen
    = SeekTo (jsmax 0 (jsmin (dur * (h / pathLen)) (dur - 1 / 100))).
Proof.
  intros Hd HL. unfold seekFromHover.
  replace (Qeq_bool dur 0) with false
    by (symmetry; apply not_true_iff_false; rewrite Qeq_bool_iff; exact Hd).
  replace (Qeq_bool pathLen 0) with false
    by (symmetry; apply not_true_iff_false; rewrite Qeq_bool_iff; exact HL).
  reflexivity.
Qed.

Lemma jsmax_0_of_neg (a : Q) : a < 0 -> jsmax 0 a = 0.
Proof.
  intros Ha. destruct (jsmax_cases 0 a) as [[H ->]|[H ->]]; [lra|reflexivity].
Qed.

Lemma jsmax_0_nonneg (a : Q) : 0 <= jsmax 0 a.
Proof. destruct (jsmax_cases 0 a) as [[H ->]|[H ->]]; lra. Qed.

(** ** Claims *)

(** C3: a pointer-move yields a non-null arc-length exactly when the
    Euclidean distance from the pointer to the nearest sampled path point is
    at most [HOVER_TOL barWidth = max(barWidth, 24)] (so a point at exactly
    that distance matches and a farther one does not), and the tolerance is
    never below 24. *)
Theorem hover_matches_iff_within_tolerance (pointAt : Q -> Q * Q)
  (barWidth pathLen x y : Q) (hover : option Q) :
  (handlePointerMove pointAt true barWidth pathLen x y hover <> None <->
   (sqrt (Q2R (nearest_d2 pointAt pathLen x y)) <= Q2R (HOVER_TOL barWidth))%R)
  /\ 24 <= HOVER_TOL barWidth.
Proof.
  split; [apply handlePointerMove_some_iff | apply HOVER_TOL_ge_24].
Qed.

(** C7: the projection is a function of the pointer, the path and its
    length alone (the previous hover state does not matter), and when it
    matches it returns the arc-length of the first sample [k] of least
    squared distance: every sample is at least as far, and every earlier
    sample is strictly farther. *)
Theorem projection_deterministic_first_min (pointAt : Q -> Q * Q)
  (barWidth pathLen x y : Q) (hover1 hover2 : option Q) :
  handlePointerMove pointAt true barWidth pathLen x y hover1
    = handlePointerMove pointAt true barWidth pathLen x y hover2 /\
  exists k, (k <= samples)%nat /\
    fst (scan pointAt pathLen x y) = sample_len pathLen k /\
    (forall j, (j <= samples)%nat ->
       sample_d2 pointAt pathLen x y k <= sample_d2 pointAt pathLen x y j) /\
    (forall j, (j < k)%nat ->
       sample_d2 pointAt pathLen x y k < sample_d2 pointAt pathLen x y j) /\
    (handlePointerMove pointAt true barWidth pathLen x y hover1 = None \/
     handlePointerMove pointAt true barWidth pathLen x y hover1
       = Some (sample_len pathLen k)).
Proof.
  destruct (scan_first_min pointAt pathLen x y) as [k [Hk [Hs [Hmin Hfirst]]]].
  rewrite !(handlePointerMove_scan _ _ _ _ _ _ k Hs).
  split; [reflexivity|].
  exists k. rewrite Hs. repeat split; try assumption.
  destruct (sqrt_le_bool _ _); [right|left]; reflexivity.
Qed.

(** C9: a non-null hover location set by a pointer-move is
    [(i / 480) * pathLen] for some integer [0 <= i <= 480], hence lies in
    [[0, pathLen]] whenever the length is non-negative. *)
Theorem hover_is_sample_point (pointAt : Q -> Q * Q)
  (barWidth pathLen x y : Q) (hover : option Q) (l : Q) :
  handlePointerMove pointAt true barWidth pathLen x y hover = Some l ->
  (exists i, (i <= samples)%nat /\ l = sample_len pathLen i) /\
  (0 <= pathLen -> 0 <= l /\ l <= pathLen).
Proof.
  intros H.
  destruct (scan_first_min pointAt pathLen x y) as [k [Hk [Hs _]]].
  rewrite (handlePointerMove_scan _ _ _ _ _ _ k Hs) in H.
  destruct (sqrt_le_bool _ _); [|discriminate].
  injection H as <-. split.
  - exists k. split; [exact Hk | reflexivity].
  - intros HL. unfold sample_len, samples in *.
    assert (Hi : 0 <= inject_Z (Z.of_nat k) <= 480).
    { split; unfold Qle; simpl; lia. }
    assert (Hq : 0 <= inject_Z (Z.of_nat k) / inject_Z (Z.of_nat 480) <= 1).
    { change (inject_Z (Z.of_nat 480)) with (480 : Q).
      split; [apply Qle_shift_div_l | apply Qle_shift_div_r]; lra. }
    split.
    + apply Qmult_le_0_compat; lra.
    + pose proof (Qmult_le_compat_r _ _ pathLen (proj2 Hq) HL). lra.
Qed.

Lemma hover_is_sample_point_witness :
  handlePointerMove top_edge_360 true 24 1 180 14 None = Some (sample_len 1 0) /\
  ((exists i, (i <= samples)%nat /\ sample_len 1 0 = sample_len 1 i) /\
   (0 <= 1 -> 0 <= sample_len 1 0 /\ sample_len 1 0 <= 1)).
Proof.
  split.
  - vm_compute. reflexivity.
  - apply (hover_is_sample_point top_edge_360 24 1 180 14 None).
    vm_compute. reflexivity.
Defined.

(** C1 (counterexample): with the placeholder length [1] still in place,
    a pointer on the path start (for [size = 360], [barWidth = 24]) yields
    a non-null hover location, and a pointer-down then seeks to [0] and
    starts playback instead of doing nothing. *)
Lemma placeholder_length_counterexample :
  handlePointerMove top_edge_360 true 24 pathLen_placeholder 180 14 None
    = Some (sample_len pathLen_placeholder 0) /\
  seekFromHover (Some (sample_len pathLen_placeholder 0)) true 10
    pathLen_placeholder = SeekTo 0.
Proof. split; vm_compute; reflexivity. Qed.

(** C1 (amended): there is no guard for the unmeasured length.  While
    [pathLen] is the placeholder [1], a pointer-move matches exactly when the
    nearest of the samples [(i / 480) * 1] is within [max(barWidth, 24)]; a
    pointer on the path start gets the hover location of sample [0]; and a
    pointer-down with a non-zero duration assigns
    [max(0, min(duration * hoverLen / 1, duration - 0.01))] and starts
    playback (time [0] for the path start). *)
Theorem placeholder_length_not_guarded (pointAt : Q -> Q * Q)
  (barWidth x y dur : Q) (hover : option Q) :
  pointAt (sample_len pathLen_placeholder 0) = (x, y) ->
  ~ dur == 0 ->
  (forall px py,
     handlePointerMove pointAt true barWidth pathLen_placeholder px py hover <> None <->
     (sqrt (Q2R (nearest_d2 pointAt pathLen_placeholder px py))
        <= Q2R (HOVER_TOL barWidth))%R) /\
  (forall h, seekFromHover (Some h) true dur pathLen_placeholder
     = SeekTo (jsmax 0 (jsmin (dur * (h / pathLen_placeholder)) (dur - 1 / 100)))) /\
  handlePointerMove pointAt true barWidth pathLen_placeholder x y hover
    = Some (sample_len pathLen_placeholder 0) /\
  seekFromHover (Some (sample_len pathLen_placeholder 0)) true dur
    pathLen_placeholder = SeekTo 0.
Proof.
  intros Hp Hd.
  assert (Hseek : forall h, seekFromHover (Some h) true dur pathLen_placeholder
     = SeekTo (jsmax 0 (jsmin (dur * (h / pathLen_placeholder)) (dur - 1 / 100)))).
  { intros h. unfold seekFromHover.
    replace (Qeq_bool dur 0) with false
      by (symmetry; apply not_true_iff_false; rewrite Qeq_bool_iff; exact Hd).
    reflexivity. }
  split; [intros; apply handlePointerMove_some_iff|].
  split; [exact Hseek|].
  split; [apply handlePointerMove_at_start; exact Hp|].
  rewrite Hseek. f_equal.
  assert (Hz : dur * (sample_len pathLen_placeholder 0 / pathLen_placeholder) == 0)
    by (setoid_replace (sample_len pathLen_placeholder 0 / pathLen_placeholder)
          with 0 by reflexivity; ring).
  destruct (jsmin_cases (dur * (sample_len pathLen_placeholder 0 / pathLen_placeholder))
              (dur - 1 / 100)) as [[H1 ->]|[H1 ->]];
  [destruct (jsmax_cases 0 (dur - 1 / 100)) as [[H2 ->]|[H2 ->]]
  |destruct (jsmax_cases 0 (dur * (sample_len pathLen_placeholder 0 / pathLen_placeholder)))
     as [[H2 ->]|[H2 ->]]]; try reflexivity; lra.
Qed.

Lemma placeholder_length_not_guarded_witness :
  top_edge_360 (sample_len pathLen_placeholder 0) = ((180 + sample_len pathLen_placeholder 0), 14) /\ ~ (10 == 0) /\
  ((forall px py,
     handlePointerMove top_edge_360 true 24 pathLen_placeholder px py None <> None <->
     (sqrt (Q2R (nearest_d2 top_edge_360 pathLen_placeholder px py))
        <= Q2R (HOVER_TOL 24))%R) /\
  (forall h, seekFromHover (Some h) true 10 pathLen_placeholder
     = SeekTo (jsmax 0 (jsmin (10 * (h / pathLen_placeholder)) (10 - 1 / 100)))) /\
  handlePointerMove top_edge_360 true 24 pathLen_placeholder (180 + sample_len pathLen_placeholder 0) 14 None
    = Some (sample_len pathLen_placeholder 0) /\
  seekFromHover (Some (sample_len pathLen_placeholder 0)) true 10
    pathLen_placeholder = SeekTo 0).
Proof.
  assert (Hp : top_edge_360 (sample_len pathLen_placeholder 0) = ((180 + sample_len pathLen_placeholder 0), 14))
    by reflexivity.
  assert (Hd : ~ (10 == 0)) by (vm_compute; discriminate).
  split; [exact Hp|]. split; [exact Hd|].
  exact (placeholder_length_not_guarded top_edge_360 24 (180 + sample_len pathLen_placeholder 0) 14 10 None Hp Hd).
Defined.

(** C2 (counterexample): for [duration = 0.005] (below the guard [0.01])
    and [hoverLen = 0.99 * pathLen], the committed time is [0], not
    [min(duration * 0.99, duration - 0.01) = -0.005]. *)
Lemma seek_scenario_E_counterexample :
  seekFromHover (Some (99 / 100 * 1)) true (1 / 200) 1 = SeekTo 0 /\
  ~ (0 == jsmin (1 / 200 * (99 / 100)) (1 / 200 - 1 / 100)).
Proof. split; vm_compute; [reflexivity | discriminate]. Qed.

(** C2 (amended): for a measured length [L > 0] and [duration > 0], a seek
    commit from hover location [h] assigns
    [clamp((h / L) * duration, 0, duration - 0.01)]
    (the lower bound applied last); for [h = 0.99 * L] this is
    [min(duration * 0.99, duration - 0.01)] when [duration >= 0.01], and
    [0] when [duration < 0.01]. *)
Theorem seek_commit_clamped (h L dur : Q) :
  0 < L -> 0 < dur ->
  (exists t, seekFromHover (Some h) true dur L = SeekTo t /\
             t == spec_progressToTime (h / L) dur) /\
  (exists t, seekFromHover (Some (99 / 100 * L)) true dur L = SeekTo t /\
             (1 / 100 <= dur -> t == jsmin (dur * (99 / 100)) (dur - 1 / 100)) /\
             (dur < 1 / 100 -> t == 0)).
Proof.
  intros HL Hd.
  assert (HL0 : ~ L == 0) by lra.
  assert (Hd0 : ~ dur == 0) by lra.
  split.
  - eexists. split; [apply seekFromHover_measured; assumption|].
    unfold spec_progressToTime, spec_clamp.
    apply jsmax_compat; [apply Qeq_refl|].
    apply jsmin_compat; [ring | apply Qeq_refl].
  - eexists. split; [apply seekFromHover_measured; assumption|].
    assert (Hf : dur * (99 / 100 * L / L) == dur * (99 / 100)) by (field; exact HL0).
    assert (Hp : 0 < dur * (99 / 100)) by (apply Qmult_lt_0_compat; [exact Hd | reflexivity]).
    split; intros Hc.
    + destruct (jsmin_cases (dur * (99 / 100 * L / L)) (dur - 1 / 100))
        as [[H1 ->]|[H1 ->]];
      destruct (jsmin_cases (dur * (99 / 100)) (dur - 1 / 100))
        as [[H2 ->]|[H2 ->]];
      [destruct (jsmax_cases 0 (dur - 1 / 100)) as [[H3 ->]|[H3 ->]]
      |destruct (jsmax_cases 0 (dur - 1 / 100)) as [[H3 ->]|[H3 ->]]
      |destruct (jsmax_cases 0 (dur * (99 / 100 * L / L))) as [[H3 ->]|[H3 ->]]
      |destruct (jsmax_cases 0 (dur * (99 / 100 * L / L))) as [[H3 ->]|[H3 ->]]];
      lra.
    + rewrite jsmax_0_of_neg; [apply Qeq_refl|].
      destruct (jsmin_cases (dur * (99 / 100 * L / L)) (dur - 1 / 100))
        as [[H1 ->]|[H1 ->]]; lra.
Qed.

Lemma seek_commit_clamped_witness :
  0 < 100 /\ 0 < 20 /\
  ((exists t, seekFromHover (Some 30) true 20 100 = SeekTo t /\
              t == spec_progressToTime (30 / 100) 20) /\
   (exists t, seekFromHover (Some (99 / 100 * 100)) true 20 100 = SeekTo t /\
              (1 / 100 <= 20 -> t == jsmin (20 * (99 / 100)) (20 - 1 / 100)) /\
              (20 < 1 / 100 -> t == 0))).
Proof.
  split; [reflexivity|]. split; [reflexivity|].
  apply (seek_commit_clamped 30 100 20); reflexivity.
Defined.

(** C10: a seek commit with [duration > 0] never assigns a negative time:
    whatever the hover location and the length, an assigned time [t] is
    [>= 0]; on a non-degenerate path it is
    [max(0, min(duration * hoverLen / pathLen, duration - 0.01))]; and when
    [0 < duration < 0.01] it is exactly [0]. *)
Theorem seek_time_never_negative (h L dur t : Q) :
  0 < dur ->
  seekFromHover (Some h) true dur L = SeekTo t ->
  0 <= t /\
  (~ L == 0 -> t = jsmax 0 (jsmin (dur * (h / L)) (dur - 1 / 100))) /\
  (dur < 1 / 100 -> t = 0).
Proof.
  intros Hd Hs.
  assert (Hd0 : ~ dur == 0) by lra.
  destruct (Qeq_bool L 0) eqn:EL.
  - apply Qeq_bool_iff in EL.
    unfold seekFromHover in Hs.
    replace (Qeq_bool dur 0) with false in Hs
      by (symmetry; apply not_true_iff_false; rewrite Qeq_bool_iff; exact Hd0).
    replace (Qeq_bool L 0) with true in Hs
      by (symmetry; apply Qeq_bool_iff; exact EL).
    simpl in Hs.
    destruct (Qeq_bool h 0); [discriminate|].
    destruct (Qltb 0 (h * dur)); injection Hs as <-.
    + split; [apply jsmax_0_nonneg|]. split; [intros HL; contradiction|].
      intros Hc. apply jsmax_0_of_neg. lra.
    + split; [apply Qle_refl|]. split; [intros HL; contradiction|].
      reflexivity.
  - assert (HL0 : ~ L == 0)
      by (intro HL; apply Qeq_bool_iff in HL; congruence).
    rewrite (seekFromHover_measured h dur L Hd0 HL0) in Hs.
    injection Hs as <-.
    split; [apply jsmax_0_nonneg|]. split; [reflexivity|].
    intros Hc. apply jsmax_0_of_neg.
    destruct (jsmin_cases (dur * (h / L)) (dur - 1 / 100)) as [[H1 ->]|[H1 ->]];
      lra.
Qed.

Lemma seek_time_never_negative_witness :
  0 < 1 / 200 /\
  seekFromHover (Some 50) true (1 / 200) 100
    = SeekTo (jsmax 0 (jsmin (1 / 200 * (50 / 100)) (1 / 200 - 1 / 100))) /\
  (0 <= jsmax 0 (jsmin (1 / 200 * (50 / 100)) (1 / 200 - 1 / 100)) /\
   (~ 100 == 0 -> jsmax 0 (jsmin (1 / 200 * (50 / 100)) (1 / 200 - 1 / 100))
                 = jsmax 0 (jsmin (1 / 200 * (50 / 100)) (1 / 200 - 1 / 100))) /\
   (1 / 200 < 1 / 100 ->
      jsmax 0 (jsmin (1 / 200 * (50 / 100)) (1 / 200 - 1 / 100)) = 0)).
Proof.
  assert (Hd : 0 < 1 / 200) by reflexivity.
  assert (Hs : seekFromHover (Some 50) true (1 / 200) 100
    = SeekTo (jsmax 0 (jsmin (1 / 200 * (50 / 100)) (1 / 200 - 1 / 100))))
    by reflexivity.
  split; [exact Hd|]. split; [exact Hs|].
  exact (seek_time_never_negative 50 100 (1 / 200) _ Hd Hs).
Defined.

Lemma pad_ge_2 (barWidth : Q) : 0 <= barWidth -> 2 <= pad barWidth.
Proof.
  intros Hb. unfold pad.
  pose proof (Qle_ceiling (barWidth / 2)) as Hc.
  assert (0 <= barWidth / 2) by (apply Qle_shift_div_l; [reflexivity | lra]).
  lra.
Qed.

Lemma jsmin3_bounds (a b : Q) :
  0 <= a -> 0 <= b -> 0 <= jsmin3 a b b /\ jsmin3 a b b <= b.
Proof.
  intros Ha Hb. unfold jsmin3.
  destruct (jsmin_cases a b) as [[H1 ->]|[H1 ->]];
  [destruct (jsmin_cases b b) as [[H2 ->]|[H2 ->]]
  |destruct (jsmin_cases a b) as [[H2 ->]|[H2 ->]]]; lra.
Qed.

(** C4 (counterexample): for [size = 10], [radius = 50], [barWidth = 24]
    the padding is [14], the drawable width is [-18], and the path has a
    point with x-coordinate [-4], outside [[0, 10]]. *)
Lemma path_bounds_counterexample :
  In (SegA (-18 # 2) (-18 # 2) (-4) (10 # 2)) (d 10 50 24) /\
  fst (seg_end (SegA (-18 # 2) (-18 # 2) (-4) (10 # 2))) < 0.
Proof. split; [vm_compute; auto 10 | reflexivity]. Qed.

(** The effective radius is one of its first two arguments and at most
    the second. *)
Lemma jsmin3_cases (a b : Q) :
  0 <= a -> jsmin3 a b b <= b /\ (0 <= jsmin3 a b b \/ jsmin3 a b b == b).
Proof.
  intros Ha. unfold jsmin3.
  destruct (jsmin_cases a b) as [[H1 ->]|[H1 ->]];
  [destruct (jsmin_cases b b) as [[H2 ->]|[H2 ->]]
  |destruct (jsmin_cases a b) as [[H2 ->]|[H2 ->]]];
  split; try lra; try (right; lra); left; lra.
Qed.

(** C4 (amended): for [radius >= 0] and [barWidth >= 0] the path starts
    with [M] at the top-midpoint [(pad + w/2, pad)] and ends with [L] at the
    same point, and every arc uses the effective radius
    [min(radius, w/2, h/2)].  When moreover [size >= pad] every end point
    lies in [[0, size] x [0, size]]; when [size >= 2 * pad] the effective
    radius lies in [[0, w/2]], while for [size < 2 * pad] it is [w/2 < 0].
    For [size < pad] the start point has [y = pad > size], outside
    [[0, size]]. *)
Theorem path_closed_and_bounded (size radius barWidth : Q) :
  0 <= radius -> 0 <= barWidth ->
  let p := pad barWidth in
  let w := size - p * 2 in
  let x0 := p + w / 2 in
  head (d size radius barWidth) = Some (SegM x0 p) /\
  last (d size radius barWidth) (SegM 0 0) = SegL x0 p /\
  Forall (fun rr => rr = (eff_radius size radius barWidth,
                          eff_radius size radius barWidth))
         (arc_radii (d size radius barWidth)) /\
  eff_radius size radius barWidth = jsmin3 radius (w / 2) (w / 2) /\
  (p <= size ->
   Forall (fun s => 0 <= fst (seg_end s) <= size /\ 0 <= snd (seg_end s) <= size)
          (d size radius barWidth)) /\
  (p * 2 <= size -> 0 <= eff_radius size radius barWidth <= w / 2) /\
  (size < p * 2 -> eff_radius size radius barWidth == w / 2 /\
                   eff_radius size radius barWidth < 0) /\
  (size < p -> size < snd (seg_end (SegM x0 p))).
Proof.
  intros Hr Hb p w x0.
  split; [reflexivity|]. split; [reflexivity|].
  split; [repeat constructor|]. split; [reflexivity|].
  pose proof (pad_ge_2 barWidth Hb) as Hp. fold p in Hp.
  assert (Hw2 : w / 2 * 2 == w) by (field).
  destruct (jsmin3_cases radius (w / 2) Hr) as [Hr1 Hr2].
  assert (He : eff_radius size radius barWidth = jsmin3 radius (w / 2) (w / 2))
    by reflexivity.
  rewrite He.
  set (r := jsmin3 radius (w / 2) (w / 2)) in *.
  set (hw := w / 2) in *.
  split; [|split; [|split]].
  - intros Hs. unfold d. fold p. fold w. fold hw. fold r.
    unfold x0. fold hw. unfold w in *.
    destruct Hr2 as [Hr2|Hr2];
      repeat constructor; cbn [seg_end fst snd]; lra.
  - intros Hs. split; [|exact Hr1].
    destruct Hr2 as [Hr2|Hr2]; [exact Hr2|]. unfold w in *. lra.
  - intros Hs. destruct Hr2 as [Hr2|Hr2]; unfold w in *; split; lra.
  - intros Hs. cbn [seg_end snd]. exact Hs.
Qed.

Lemma path_closed_and_bounded_witness :
  0 <= 50 /\ 0 <= 24 /\
  (let p := pad 24 in
   let w := 20 - p * 2 in
   let x0 := p + w / 2 in
   head (d 20 50 24) = Some (SegM x0 p) /\
   last (d 20 50 24) (SegM 0 0) = SegL x0 p /\
   Forall (fun rr => rr = (eff_radius 20 50 24, eff_radius 20 50 24))
          (arc_radii (d 20 50 24)) /\
   eff_radius 20 50 24 = jsmin3 50 (w / 2) (w / 2) /\
   (p <= 20 ->
    Forall (fun s => 0 <= fst (seg_end s) <= 20 /\ 0 <= snd (seg_end s) <= 20)
           (d 20 50 24)) /\
   (p * 2 <= 20 -> 0 <= eff_radius 20 50 24 <= w / 2) /\
   (20 < p * 2 -> eff_radius 20 50 24 == w / 2 /\ eff_radius 20 50 24 < 0) /\
   (20 < p -> 20 < snd (seg_end (SegM x0 p)))).
Proof.
  assert (Hr : 0 <= 50) by (vm_compute; discriminate).
  assert (Hb : 0 <= 24) by (vm_compute; discriminate).
  split; [exact Hr|]. split; [exact Hb|].
  exact (path_closed_and_bounded 20 50 24 Hr Hb).
Defined.

Lemma fold_left_map_comp {A B C : Type} (f : A -> B -> A) (g : C -> B)
  (l : list C) (a : A) :
  fold_left f (map g l) a = fold_left (fun acc c => f acc (g c)) l a.
Proof.
  revert a. induction l as [|c l IH]; intros a; simpl; [reflexivity | apply IH].
Qed.

(** C5 (counterexample): the loop runs for [i = 0 .. 480] inclusive, so it
    visits 481 arc-lengths, not 480. *)
Lemma sample_count_counterexample :
  length (sample_lens pathLen_placeholder) = 481%nat /\
  length (sample_lens pathLen_placeholder) <> 480%nat.
Proof. split; [reflexivity | discriminate]. Qed.

(** C5 (amended): the nearest-point search visits, in order, the 481
    arc-lengths [(i / 480) * pathLen] for [i = 0 .. 480] (480 equal steps of
    [pathLen / 480] from [0] to [pathLen], both ends included) and, for each,
    compares the squared Euclidean distance from the pointer to
    [getPointAtLength] of that arc-length. *)
Theorem scan_samples_481_points (pointAt : Q -> Q * Q) (pathLen x y : Q) :
  scan pointAt pathLen x y
    = fold_left (fun acc l =>
                   let d2 := dist2 (pointAt l) x y in
                   if lt_best d2 (snd acc) then (l, Some d2) else acc)
                (sample_lens pathLen) (0, None) /\
  length (sample_lens pathLen) = S samples /\
  (forall i, (i <= samples)%nat -> nth i (sample_lens pathLen) 0 = sample_len pathLen i) /\
  sample_len pathLen 0 == 0 /\
  sample_len pathLen samples == pathLen /\
  (forall i, (i < samples)%nat ->
     sample_len pathLen (S i) - sample_len pathLen i == pathLen / 480).
Proof.
  split; [unfold scan, sample_lens; rewrite fold_left_map_comp; reflexivity|].
  split; [unfold sample_lens; rewrite length_map; reflexivity|].
  split.
  { intros i Hi. unfold sample_lens.
    rewrite nth_indep with (d' := sample_len pathLen 0)
      by (rewrite length_map; unfold sample_indices; rewrite length_seq; lia).
    rewrite map_nth. unfold sample_indices. rewrite seq_nth by lia. reflexivity. }
  unfold sample_len, samples.
  split; [change (inject_Z (Z.of_nat 0)) with 0; field|].
  split; [change (inject_Z (Z.of_nat 480)) with 480; field|].
  intros i Hi.
  rewrite Nat2Z.inj_succ, <- Z.add_1_r, inject_Z_plus.
  change (inject_Z (Z.of_nat 480)) with 480. change (inject_Z 1) with 1.
  field.
Qed.

Section Playback.

Variable Dm : Q.
Hypothesis Dm_nonneg : 0 <= Dm.

(** The state invariant: the stored duration is [0] or the media
    duration, and the stored time lies in [[0, Dm]]. *)
Definition player_inv (s : player) : Prop :=
  (duration s = 0 \/ duration s = Dm) /\ 0 <= current s /\ current s <= Dm.

Lemma player_inv_init : player_inv player_init.
Proof. unfold player_inv. simpl. split; [left; reflexivity | lra]. Qed.

Lemma player_inv_step (s : player) (ev : media_event) :
  media_ok Dm ev -> player_inv s -> player_inv (on_event s ev).
Proof.
  intros Hev [Hd [Hc0 Hc1]].
  destruct ev as [vd|vt|]; simpl in *; unfold player_inv; simpl.
  - split; [|lra].
    destruct Hev as [-> | ->]; simpl; [left; reflexivity|].
    destruct (Qeq_bool Dm 0); [left|right]; reflexivity.
  - split; [exact Hd|].
    destruct Hev as [-> | [t [-> [Ht0 Ht1]]]]; simpl; [lra|].
    destruct (Qeq_bool t 0); lra.
  - split; [exact Hd | lra].
Qed.

Lemma player_inv_run (evs : list media_event) :
  Forall (media_ok Dm) evs -> player_inv (run_events evs).
Proof.
  unfold run_events. generalize player_init player_inv_init.
  induction evs as [|ev evs IH]; intros s Hs Hall; simpl; [exact Hs|].
  inversion Hall as [|? ? Hev Hrest]; subst.
  apply IH; [apply player_inv_step|]; assumption.
Qed.

End Playback.

(** C6: in every state reached from the initial one through media events
    that respect the media element's contract, the stored duration is
    non-negative and the progress ratio is [current / duration] when
    [duration > 0], [0] when [duration = 0], and always in [[0, 1]]. *)
Theorem progress_in_unit_interval (Dm : Q) (evs : list media_event) :
  0 <= Dm -> Forall (media_ok Dm) evs ->
  let s := run_events evs in
  0 <= duration s /\
  (0 < duration s -> progress s = current s / duration s) /\
  (duration s == 0 -> progress s = 0) /\
  0 <= progress s /\ progress s <= 1.
Proof.
  intros HD Hall s.
  destruct (player_inv_run Dm HD evs Hall) as [Hd [Hc0 Hc1]]. fold s in Hd, Hc0, Hc1.
  assert (Hdn : 0 <= duration s) by (destruct Hd as [-> | ->]; lra).
  split; [exact Hdn|].
  unfold progress.
  split; [intros Hp; apply Qltb_spec in Hp; rewrite Hp; reflexivity|].
  split; [intros Hz; replace (Qltb 0 (duration s)) with false
            by (symmetry; apply Qltb_false; lra); reflexivity|].
  qcase_ltb 0 (duration s); [|lra].
  destruct Hd as [Hd|Hd]; [rewrite Hd in E; discriminate|].
  rewrite Hd in *. split.
  - apply Qle_shift_div_l; lra.
  - apply Qle_shift_div_r; lra.
Qed.

Lemma progress_in_unit_interval_witness :
  0 <= 100 /\
  Forall (media_ok 100) [Loaded (Some 100); TimeUpdate (Some 25)] /\
  (let s := run_events [Loaded (Some 100); TimeUpdate (Some 25)] in
   0 <= duration s /\
   (0 < duration s -> progress s = current s / duration s) /\
   (duration s == 0 -> progress s = 0) /\
   0 <= progress s /\ progress s <= 1).
Proof.
  assert (HD : 0 <= 100) by (vm_compute; discriminate).
  assert (Hall : Forall (media_ok 100) [Loaded (Some 100); TimeUpdate (Some 25)]).
  { constructor; [simpl; right; reflexivity|].
    constructor; [|constructor].
    simpl. right. exists 25. split; [reflexivity|]. split; vm_compute; discriminate. }
  split; [exact HD|]. split; [exact Hall|].
  exact (progress_in_unit_interval 100 _ HD Hall).
Defined.

Lemma round_half_up_error (v : Q) :
  Qabs (inject_Z (Qfloor (v * 100 + 1 / 2)) / 100 - v) <= 1 / 200.
Proof.
  pose proof (Qfloor_le (v * 100 + 1 / 2)) as H1.
  pose proof (Qlt_floor (v * 100 + 1 / 2)) as H2.
  rewrite inject_Z_plus in H2. change (inject_Z 1) with 1 in H2.
  set (n := inject_Z (Qfloor (v * 100 + 1 / 2))) in *.
  change (n / 100) with (n * (1 # 100)). change (1 / 200) with (1 # 200).
  change (1 / 2) with (1 # 2) in *.
  apply Qabs_Qle_condition. lra.
Qed.

Lemma toFixed2_error (v : Q) : Qabs (toFixed2 v - v) <= 1 / 200.
Proof.
  unfold toFixed2. destruct (Qltb v 0).
  - pose proof (round_half_up_error (- v)) as H.
    setoid_replace (- (inject_Z (Qfloor (- v * 100 + 1 / 2)) / 100) - v)
      with (- (inject_Z (Qfloor (- v * 100 + 1 / 2)) / 100 - - v)) by ring.
    rewrite Qabs_opp. exact H.
  - apply round_half_up_error.
Qed.

(** C8 (counterexample): with [duration = 100], [currentTime = 25] the
    progress is [0.25], but for a measured length [1234.567] the dash is
    [("308.64", "1234.57")], not [(0.25 * 1234.567, 1234.567)]. *)
Lemma redDash_counterexample :
  progress (run_events [Loaded (Some 100); TimeUpdate (Some 25)]) == 1 / 4 /\
  redDash (progress (run_events [Loaded (Some 100); TimeUpdate (Some 25)]))
    (1234567 # 1000) = (30864 # 100, 123457 # 100) /\
  ~ (fst (redDash (progress (run_events [Loaded (Some 100); TimeUpdate (Some 25)]))
            (1234567 # 1000))
     == progress (run_events [Loaded (Some 100); TimeUpdate (Some 25)])
        * (1234567 # 1000)) /\
  ~ (snd (redDash (progress (run_events [Loaded (Some 100); TimeUpdate (Some 25)]))
            (1234567 # 1000)) == 1234567 # 1000).
Proof.
  split; [reflexivity|]. split; [vm_compute; reflexivity|].
  split; vm_compute; intro H; discriminate H.
Qed.

(** C8 (amended): the progress stroke descriptor is the dash pattern
    [(progress * totalLength, totalLength)] with each number written by
    [toFixed(2)], i.e. rounded to hundredths, so each entry is within
    [0.005] of the exact value; with [duration = 100] and [currentTime = 25]
    the progress is [0.25] and the dash is
    [(round2(0.25 * totalLength), round2(totalLength))]. *)
Theorem redDash_rounded_to_hundredths (prog pathLen : Q) :
  redDash prog pathLen = (toFixed2 (prog * pathLen), toFixed2 pathLen) /\
  Qabs (fst (redDash prog pathLen) - prog * pathLen) <= 1 / 200 /\
  Qabs (snd (redDash prog pathLen) - pathLen) <= 1 / 200 /\
  progress (run_events [Loaded (Some 100); TimeUpdate (Some 25)]) == 1 / 4 /\
  redDash (progress (run_events [Loaded (Some 100); TimeUpdate (Some 25)])) pathLen
    = (toFixed2 (25 / 100 * pathLen), toFixed2 pathLen).
Proof.
  split; [reflexivity|].
  split; [apply toFixed2_error|].
  split; [apply toFixed2_error|].
  split; [reflexivity|].
  reflexivity.
Qed.

(** ** The whole component *)

Lemma run_ui_cons (en : env) (c : component) (ev : ui_event) (evs : list ui_event) :
  run_ui en c (ev :: evs)
  = (fst (run_ui en (fst (ui_step en c ev)) evs),
     snd (ui_step en c ev) ++ snd (run_ui en (fst (ui_step en c ev)) evs)).
Proof.
  simpl. destruct (ui_step en c ev) as [c1 o1]. simpl.
  destruct (run_ui en c1 evs) as [c2 o2]. reflexivity.
Qed.

Lemma seekFromHover_nonneg (h : option Q) (b : bool) (dur L t : Q) :
  seekFromHover h b dur L = SeekTo t -> 0 <= t.
Proof.
  unfold seekFromHover. destruct h as [h|]; [|discriminate].
  destruct (negb b || Qeq_bool dur 0); [discriminate|].
  destruct (Qeq_bool L 0).
  - destruct (Qeq_bool h 0); [discriminate|].
    destruct (Qltb 0 (h * dur)); intros H; injection H as <-;
      [apply jsmax_0_nonneg | apply Qle_refl].
  - intros H. injection H as <-. apply jsmax_0_nonneg.
Qed.

Lemma ui_step_set_time_nonneg (en : env) (c : component) (ev : ui_event) (t : Q) :
  In (VSetTime t) (snd (ui_step en c ev)) -> 0 <= t.
Proof.
  intros Hin.
  destruct ev; simpl in Hin.
  - destruct Hin.
  - destruct Hin.
  - unfold onPointerDown in Hin.
    destruct (seekFromHover _ _ _ _) eqn:E; simpl in Hin; [destruct Hin| |destruct Hin].
    destruct Hin as [H|[H|[]]]; [|discriminate]. injection H as <-.
    exact (seekFromHover_nonneg _ _ _ _ _ E).
  - unfold togglePlay in Hin. destruct (negb (e_hasVideo en)); simpl in Hin; [destruct Hin|].
    destruct (isPlaying (c_player c)); simpl in Hin; destruct Hin as [H|[]]; discriminate.
  - unfold replay in Hin. destruct (negb (e_hasVideo en)); simpl in Hin; [destruct Hin|].
    destruct Hin as [H|[H|[]]]; [|discriminate]. injection H as <-. apply Qle_refl.
  - destruct (c_pending c); simpl in Hin; destruct Hin.
  - destruct (e_hasVideo en); simpl in Hin; destruct Hin.
  - destruct (e_hasPath en); simpl in Hin; destruct Hin.
Qed.

(** X1: whatever the events, the component never assigns a negative
    [currentTime] to the video: every assignment comes from a seek commit,
    whose time is clamped below by [0], or from Replay, which assigns [0]. *)
Theorem run_ui_never_negative_time (en : env) (c : component) (evs : list ui_event)
  (t : Q) :
  In (VSetTime t) (snd (run_ui en c evs)) -> 0 <= t.
Proof.
  revert c. induction evs as [|ev evs IH]; intros c; [intros []|].
  rewrite run_ui_cons. simpl. intros Hin. apply in_app_or in Hin as [Hin|Hin].
  - exact (ui_step_set_time_nonneg en c ev t Hin).
  - exact (IH _ Hin).
Qed.

Lemma sample_len_bounds (pathLen : Q) (k : nat) :
  (k <= samples)%nat -> 0 <= pathLen ->
  0 <= sample_len pathLen k /\ sample_len pathLen k <= pathLen.
Proof.
  intros Hk HL. unfold sample_len, samples in *.
  assert (Hi : 0 <= inject_Z (Z.of_nat k) <= 480) by (split; unfold Qle; simpl; lia).
  assert (Hq : 0 <= inject_Z (Z.of_nat k) / inject_Z (Z.of_nat 480) <= 1).
  { change (inject_Z (Z.of_nat 480)) with (480 : Q).
    split; [apply Qle_shift_div_l | apply Qle_shift_div_r]; lra. }
  split.
  - apply Qmult_le_0_compat; lra.
  - pose proof (Qmult_le_compat_r _ _ pathLen (proj2 Hq) HL). lra.
Qed.

(** The possible results of a pointer-move on an attached path. *)
Lemma handlePointerMove_cases (pointAt : Q -> Q * Q) (barWidth pathLen x y : Q)
  (hover : option Q) :
  handlePointerMove pointAt true barWidth pathLen x y hover = None \/
  exists k, (k <= samples)%nat /\
    handlePointerMove pointAt true barWidth pathLen x y hover = Some (sample_len pathLen k).
Proof.
  destruct (scan_first_min pointAt pathLen x y) as [k [Hk [Hs _]]].
  rewrite (handlePointerMove_scan _ _ _ _ _ _ k Hs).
  destruct (sqrt_le_bool _ _); [right; exists k; split; [exact Hk | reflexivity] | left; reflexivity].
Qed.

Definition hover_inv (c : component) : Prop :=
  0 <= c_pathLen c /\ forall h, c_hover c = Some h -> 0 <= h.

Lemma hover_inv_step (en : env) (c : component) (ev : ui_event) :
  frame_ok ev -> hover_inv c -> hover_inv (fst (ui_step en c ev)).
Proof.
  intros Hev [HL Hh].
  destruct ev; simpl in *; unfold hover_inv; simpl.
  - split; [exact HL|]. intros h.
    destruct (e_hasPath en); [|exact (Hh h)].
    destruct (handlePointerMove_cases (e_pointAt en) (e_barWidth en) (c_pathLen c) x y
                (c_hover c)) as [-> | [k [Hk ->]]]; [discriminate|].
    intros E. injection E as <-. apply (sample_len_bounds _ _ Hk HL).
  - split; [exact HL | discriminate].
  - unfold onPointerDown. destruct (seekFromHover _ _ _ _); simpl; split; assumption.
  - unfold togglePlay. destruct (negb (e_hasVideo en)); [split; assumption|].
    destruct (isPlaying (c_player c)); simpl; split; assumption.
  - unfold replay. destruct (negb (e_hasVideo en)); simpl; split; assumption.
  - destruct (c_pending c); simpl; split; assumption.
  - destruct (e_hasVideo en); simpl; split; assumption.
  - destruct (e_hasPath en); simpl; split; assumption.
Qed.

Lemma run_ui_hover_inv (en : env) (c : component) (evs : list ui_event) :
  hover_inv c -> Forall frame_ok evs -> hover_inv (fst (run_ui en c evs)).
Proof.
  revert c. induction evs as [|ev evs IH]; intros c Hc Hall; [exact Hc|].
  inversion Hall as [|? ? Hev Hrest]; subst.
  rewrite run_ui_cons. simpl. apply IH; [apply hover_inv_step|]; assumption.
Qed.

(** X2: as long as every measured path length is non-negative, the stored
    path length stays non-negative and every hover location the component
    holds is non-negative, whatever the pointer, media and button events. *)
Theorem run_ui_hover_nonneg (en : env) (evs : list ui_event) :
  Forall frame_ok evs ->
  0 <= c_pathLen (fst (run_ui en component_init evs)) /\
  (forall h, c_hover (fst (run_ui en component_init evs)) = Some h -> 0 <= h).
Proof.
  intros Hall. apply run_ui_hover_inv; [|exact Hall].
  split; [unfold component_init; simpl; lra | discriminate].
Qed.

Lemma run_ui_hover_nonneg_witness :
  Forall frame_ok [UFrame 1000; UPointerMove 180 14] /\
  (0 <= c_pathLen (fst (run_ui (mkEnv true true top_edge_360 24) component_init
                          [UFrame 1000; UPointerMove 180 14])) /\
   (forall h, c_hover (fst (run_ui (mkEnv true true top_edge_360 24) component_init
                              [UFrame 1000; UPointerMove 180 14])) = Some h -> 0 <= h)).
Proof.
  assert (Hall : Forall frame_ok [UFrame 1000; UPointerMove 180 14]).
  { constructor; [simpl; vm_compute; discriminate|].
    constructor; [exact I | constructor]. }
  split; [exact Hall|].
  exact (run_ui_hover_nonneg (mkEnv true true top_edge_360 24) _ Hall).
Defined.

(** X3: a pointer-down right after a pointer-leave never seeks: the hover
    location is cleared and no call is made on the video. *)
Theorem leave_then_down_no_seek (en : env) (c : component) :
  run_ui en c [UPointerLeave; UPointerDown] = (with_hover c None, []).
Proof. reflexivity. Qed.

(** X4: clicking the button while playing pauses at once: [pause()] is
    called and the playing flag is cleared in the same event. *)
Theorem toggle_while_playing_pauses (en : env) (c : component) :
  e_hasVideo en = true -> isPlaying (c_player c) = true ->
  snd (run_ui en c [UTogglePlay]) = [VPause] /\
  isPlaying (c_player (fst (run_ui en c [UTogglePlay]))) = false /\
  button_label (c_player (fst (run_ui en c [UTogglePlay]))) <> LPause.
Proof.
  intros Hv Hp. simpl. unfold togglePlay. rewrite Hv, Hp. simpl.
  split; [reflexivity|]. split; [reflexivity|].
  unfold button_label. simpl. destruct (at_end _); discriminate.
Qed.

Lemma toggle_while_playing_pauses_witness :
  e_hasVideo (mkEnv true true top_edge_360 24) = true /\
  isPlaying (c_player (mkComponent (mkPlayer true 100 25) None 1 0)) = true /\
  (snd (run_ui (mkEnv true true top_edge_360 24) (mkComponent (mkPlayer true 100 25) None 1 0)
          [UTogglePlay]) = [VPause] /\
   isPlaying (c_player (fst (run_ui (mkEnv true true top_edge_360 24)
                               (mkComponent (mkPlayer true 100 25) None 1 0) [UTogglePlay])))
     = false /\
   button_label (c_player (fst (run_ui (mkEnv true true top_edge_360 24)
                                  (mkComponent (mkPlayer true 100 25) None 1 0) [UTogglePlay])))
     <> LPause).
Proof.
  split; [reflexivity|]. split; [reflexivity|].
  apply toggle_while_playing_pauses; reflexivity.
Defined.

(** X5: clicking the button while paused calls [play()] but sets the
    playing flag only when the promise settles (resolved or rejected); a
    second click before that calls [play()] again instead of pausing, and
    once both settle the component is playing with no continuation left
    over. *)
Theorem toggle_while_paused_async (en : env) (c : component) :
  e_hasVideo en = true -> isPlaying (c_player c) = false ->
  snd (run_ui en c [UTogglePlay]) = [VPlay] /\
  isPlaying (c_player (fst (run_ui en c [UTogglePlay]))) = false /\
  snd (run_ui en c [UTogglePlay; UTogglePlay; UPlaySettled; UPlaySettled])
    = [VPlay; VPlay] /\
  isPlaying (c_player (fst (run_ui en c [UTogglePlay; UTogglePlay; UPlaySettled; UPlaySettled])))
    = true /\
  c_pending (fst (run_ui en c [UTogglePlay; UTogglePlay; UPlaySettled; UPlaySettled]))
    = c_pending c.
Proof.
  intros Hv Hp. simpl. unfold togglePlay. rewrite Hv. simpl. rewrite Hp. simpl.
  rewrite Hp. simpl. repeat split; reflexivity.
Qed.

Lemma toggle_while_paused_async_witness :
  e_hasVideo (mkEnv true true top_edge_360 24) = true /\
  isPlaying (c_player component_init) = false /\
  (snd (run_ui (mkEnv true true top_edge_360 24) component_init [UTogglePlay]) = [VPlay] /\
   isPlaying (c_player (fst (run_ui (mkEnv true true top_edge_360 24) component_init
                               [UTogglePlay]))) = false /\
   snd (run_ui (mkEnv true true top_edge_360 24) component_init
          [UTogglePlay; UTogglePlay; UPlaySettled; UPlaySettled]) = [VPlay; VPlay] /\
   isPlaying (c_player (fst (run_ui (mkEnv true true top_edge_360 24) component_init
          [UTogglePlay; UTogglePlay; UPlaySettled; UPlaySettled]))) = true /\
   c_pending (fst (run_ui (mkEnv true true top_edge_360 24) component_init
          [UTogglePlay; UTogglePlay; UPlaySettled; UPlaySettled])) = c_pending component_init).
Proof.
  split; [reflexivity|]. split; [reflexivity|].
  apply toggle_while_paused_async; reflexivity.
Defined.

(** X6: Replay rewinds the video to [0] and calls [play()], and the
    component is playing once that promise settles; without a video
    element, Replay, the play button and a pointer-down do nothing. *)
Theorem replay_and_missing_video (en : env) (c : component) :
  (e_hasVideo en = true ->
   snd (run_ui en c [UReplay; UPlaySettled]) = [VSetTime 0; VPlay] /\
   isPlaying (c_player (fst (run_ui en c [UReplay; UPlaySettled]))) = true /\
   c_pending (fst (run_ui en c [UReplay; UPlaySettled])) = c_pending c) /\
  (e_hasVideo en = false ->
   run_ui en c [UReplay] = (c, []) /\
   run_ui en c [UTogglePlay] = (c, []) /\
   run_ui en c [UPointerDown] = (c, [])).
Proof.
  split; intros Hv.
  - simpl. unfold replay. rewrite Hv. simpl. repeat split; reflexivity.
  - simpl. unfold replay, togglePlay, onPointerDown, seekFromHover. rewrite Hv. simpl.
    split; [reflexivity|]. split; [reflexivity|].
    destruct (c_hover c); reflexivity.
Qed.

Lemma or0_some (v : Q) : or0 (Some v) == v.
Proof.
  unfold or0. destruct (Qeq_bool v 0) eqn:E; [|apply Qeq_refl].
  apply Qeq_bool_iff in E. rewrite E. apply Qeq_refl.
Qed.

(** X7: after a seek commit on a measured path ([pathLen > 0], [duration > 0],
    hover [h >= 0]) and the time update reporting the assigned time, the
    component is playing, shows "Pause", and shows the Replay button exactly
    when [duration * h / pathLen >= duration - 0.01]: a seek near enough to
    the end lands on the end-of-media threshold. *)
Theorem seek_then_time_update_at_end (en : env) (c : component) (h : Q) :
  e_hasVideo en = true -> c_hover c = Some h -> 0 <= h ->
  0 < c_pathLen c -> 0 < duration (c_player c) ->
  exists t, snd (run_ui en c [UPointerDown]) = [VSetTime t; VPlay] /\
    isPlaying (c_player (fst (run_ui en c [UPointerDown; UMedia (TimeUpdate (Some t))])))
      = true /\
    button_label (c_player (fst (run_ui en c [UPointerDown; UMedia (TimeUpdate (Some t))])))
      = LPause /\
    (replay_visible (c_player (fst (run_ui en c [UPointerDown; UMedia (TimeUpdate (Some t))])))
       = true <->
     duration (c_player c) - 1 / 100 <= duration (c_player c) * (h / c_pathLen c)).
Proof.
  intros Hv Hh Hh0 HL Hd.
  set (dur := duration (c_player c)) in *. set (L := c_pathLen c) in *.
  assert (Hs : seekFromHover (c_hover c) (e_hasVideo en) dur L
               = SeekTo (jsmax 0 (jsmin (dur * (h / L)) (dur - 1 / 100)))).
  { rewrite Hh, Hv. apply seekFromHover_measured; lra. }
  exists (jsmax 0 (jsmin (dur * (h / L)) (dur - 1 / 100))).
  simpl. unfold onPointerDown. fold dur L. rewrite Hs. simpl. rewrite Hv. simpl.
  split; [reflexivity|]. split; [reflexivity|]. split; [reflexivity|].
  unfold replay_visible, at_end. simpl. fold dur.
  replace (Qltb 0 dur) with true by (symmetry; apply Qltb_spec; exact Hd).
  rewrite andb_true_r, Qle_bool_iff.
  rewrite (or0_some (jsmax 0 (jsmin (dur * (h / L)) (dur - 1 / 100)))).
  assert (Hf : 0 <= dur * (h / L)).
  { apply Qmult_le_0_compat; [lra|]. apply Qle_shift_div_l; lra. }
  destruct (jsmin_cases (dur * (h / L)) (dur - 1 / 100)) as [[H1 ->]|[H1 ->]].
  - destruct (jsmax_cases 0 (dur - 1 / 100)) as [[H2 ->]|[H2 ->]]; split; intros; lra.
  - destruct (jsmax_cases 0 (dur * (h / L))) as [[H2 ->]|[H2 ->]]; split; intros; lra.
Qed.

Lemma seek_then_time_update_at_end_witness :
  e_hasVideo (mkEnv true true top_edge_360 24) = true /\
  c_hover (mkComponent (mkPlayer false 100 0) (Some 1000) 1000 0) = Some 1000 /\
  0 <= 1000 /\
  0 < c_pathLen (mkComponent (mkPlayer false 100 0) (Some 1000) 1000 0) /\
  0 < duration (c_player (mkComponent (mkPlayer false 100 0) (Some 1000) 1000 0)) /\
  exists t,
    snd (run_ui (mkEnv true true top_edge_360 24)
           (mkComponent (mkPlayer false 100 0) (Some 1000) 1000 0) [UPointerDown])
      = [VSetTime t; VPlay] /\
    isPlaying (c_player (fst (run_ui (mkEnv true true top_edge_360 24)
       (mkComponent (mkPlayer false 100 0) (Some 1000) 1000 0)
       [UPointerDown; UMedia (TimeUpdate (Some t))]))) = true /\
    button_label (c_player (fst (run_ui (mkEnv true true top_edge_360 24)
       (mkComponent (mkPlayer false 100 0) (Some 1000) 1000 0)
       [UPointerDown; UMedia (TimeUpdate (Some t))]))) = LPause /\
    (replay_visible (c_player (fst (run_ui (mkEnv true true top_edge_360 24)
       (mkComponent (mkPlayer false 100 0) (Some 1000) 1000 0)
       [UPointerDown; UMedia (TimeUpdate (Some t))]))) = true <->
     duration (c_player (mkComponent (mkPlayer false 100 0) (Some 1000) 1000 0)) - 1 / 100
       <= duration (c_player (mkComponent (mkPlayer false 100 0) (Some 1000) 1000 0))
          * (1000 / c_pathLen (mkComponent (mkPlayer false 100 0) (Some 1000) 1000 0))).
Proof.
  split; [reflexivity|]. split; [reflexivity|].
  split; [vm_compute; discriminate|]. split; [reflexivity|]. split; [reflexivity|].
  apply seek_then_time_update_at_end; [reflexivity | reflexivity | vm_compute; discriminate
                                       | reflexivity | reflexivity].
Defined.

(** X8: for a hover location set by a pointer-move on a path of length
    [pathLen >= 0], the hover marker's dash offset is
    [pathLen - hoverLen + 5] (the [Math.max(..., 0)] never clips it) and
    lies in [[5, pathLen + 5]]; without a match the offset is [0]. *)
Theorem yellowOffset_after_move (pointAt : Q -> Q * Q) (barWidth pathLen x y : Q)
  (hover : option Q) :
  0 <= pathLen ->
  (handlePointerMove pointAt true barWidth pathLen x y hover = None /\
   yellowOffset (handlePointerMove pointAt true barWidth pathLen x y hover) pathLen = 0) \/
  (exists l, handlePointerMove pointAt true barWidth pathLen x y hover = Some l /\
   yellowOffset (handlePointerMove pointAt true barWidth pathLen x y hover) pathLen
     == pathLen - l + 5 /\
   5 <= yellowOffset (handlePointerMove pointAt true barWidth pathLen x y hover) pathLen /\
   yellowOffset (handlePointerMove pointAt true barWidth pathLen x y hover) pathLen
     <= pathLen + 5).
Proof.
  intros HL.
  destruct (handlePointerMove_cases pointAt barWidth pathLen x y hover) as [E|[k [Hk E]]];
    rewrite E; [left; split; reflexivity|right].
  exists (sample_len pathLen k). split; [reflexivity|].
  destruct (sample_len_bounds pathLen k Hk HL) as [Hl0 Hl1].
  unfold yellowOffset, yellowVisible.
  assert (H5 : 10 / 2 == 5) by reflexivity.
  destruct (jsmax_cases (pathLen - (sample_len pathLen k - 10 / 2)) 0) as [[H1 ->]|[H1 ->]];
    [lra|]. lra.
Qed.

Lemma yellowOffset_after_move_witness :
  0 <= 1000 /\
  ((handlePointerMove top_edge_360 true 24 1000 180 14 None = None /\
    yellowOffset (handlePointerMove top_edge_360 true 24 1000 180 14 None) 1000 = 0) \/
   (exists l, handlePointerMove top_edge_360 true 24 1000 180 14 None = Some l /\
    yellowOffset (handlePointerMove top_edge_360 true 24 1000 180 14 None) 1000
      == 1000 - l + 5 /\
    5 <= yellowOffset (handlePointerMove top_edge_360 true 24 1000 180 14 None) 1000 /\
    yellowOffset (handlePointerMove top_edge_360 true 24 1000 180 14 None) 1000
      <= 1000 + 5)).
Proof.
  assert (HL : 0 <= 1000) by (vm_compute; discriminate).
  split; [exact HL|].
  exact (yellowOffset_after_move top_edge_360 24 1000 180 14 None HL).
Defined.

Lemma progress_bounds (Dm : Q) (s : player) :
  player_inv Dm s -> 0 <= progress s /\ progress s <= 1.
Proof.
  intros [Hd [Hc0 Hc1]]. unfold progress.
  qcase_ltb 0 (duration s); [|split; [apply Qle_refl | discriminate]].
  destruct Hd as [Hd|Hd]; [rewrite Hd in E; discriminate|].
  rewrite Hd in *. split.
  - apply Qle_shift_div_l; lra.
  - apply Qle_shift_div_r; lra.
Qed.

Definition comp_inv (Dm : Q) (c : component) : Prop :=
  player_inv Dm (c_player c) /\ 0 <= c_pathLen c.

Lemma comp_inv_step (Dm : Q) (en : env) (c : component) (ev : ui_event) :
  0 <= Dm -> ui_ok Dm ev -> comp_inv Dm c -> comp_inv Dm (fst (ui_step en c ev)).
Proof.
  intros HD Hev [Hp HL].
  assert (Hset : forall b, player_inv Dm (set_playing b (c_player c))) by (intros b; exact Hp).
  destruct ev; simpl in *; unfold comp_inv; simpl.
  - split; assumption.
  - split; assumption.
  - unfold onPointerDown. destruct (seekFromHover _ _ _ _); simpl; split; auto.
  - unfold togglePlay. destruct (negb (e_hasVideo en)); [split; assumption|].
    destruct (isPlaying (c_player c)); simpl; split; auto.
  - unfold replay. destruct (negb (e_hasVideo en)); simpl; split; assumption.
  - destruct (c_pending c); simpl; split; auto.
  - destruct (e_hasVideo en); simpl; split; auto.
    eapply player_inv_step; eauto.
  - destruct (e_hasPath en); simpl; split; assumption.
Qed.

Lemma comp_inv_run (Dm : Q) (en : env) (c : component) (evs : list ui_event) :
  0 <= Dm -> comp_inv Dm c -> Forall (ui_ok Dm) evs -> comp_inv Dm (fst (run_ui en c evs)).
Proof.
  intros HD. revert c. induction evs as [|ev evs IH]; intros c Hc Hall; [exact Hc|].
  inversion Hall as [|? ? Hev Hrest]; subst.
  rewrite run_ui_cons. simpl. apply IH; [apply comp_inv_step|]; assumption.
Qed.

Lemma round_half_up_mono (a b : Q) :
  a <= b -> inject_Z (Qfloor (a * 100 + 1 / 2)) / 100
            <= inject_Z (Qfloor (b * 100 + 1 / 2)) / 100.
Proof.
  intros Hab.
  assert (Hz : (Qfloor (a * 100 + 1 / 2) <= Qfloor (b * 100 + 1 / 2))%Z).
  { apply Qfloor_resp_le. lra. }
  rewrite Zle_Qle in Hz.
  change (inject_Z (Qfloor (a * 100 + 1 / 2)) / 100)
    with (inject_Z (Qfloor (a * 100 + 1 / 2)) * (1 # 100)).
  change (inject_Z (Qfloor (b * 100 + 1 / 2)) / 100)
    with (inject_Z (Qfloor (b * 100 + 1 / 2)) * (1 # 100)).
  lra.
Qed.

Lemma toFixed2_nonneg_mono (a b : Q) :
  0 <= a -> a <= b -> 0 <= toFixed2 a /\ toFixed2 a <= toFixed2 b.
Proof.
  intros Ha Hab. unfold toFixed2.
  replace (Qltb a 0) with false by (symmetry; apply Qltb_false; exact Ha).
  replace (Qltb b 0) with false by (symmetry; apply Qltb_false; lra).
  split; [|apply round_half_up_mono; exact Hab].
  eapply Qle_trans; [|exact (round_half_up_mono 0 a Ha)].
  vm_compute. discriminate.
Qed.

(** X9: in every state the component reaches from mount, as long as the
    media element keeps its contract and measured lengths are not
    negative, the progress is in [[0, 1]] and the red dash pattern never
    has a visible segment longer than its period: [0 <= dash <= gap]. *)
Theorem red_dash_within_period (en : env) (Dm : Q) (evs : list ui_event) :
  0 <= Dm -> Forall (ui_ok Dm) evs ->
  0 <= progress (c_player (fst (run_ui en component_init evs))) /\
  progress (c_player (fst (run_ui en component_init evs))) <= 1 /\
  0 <= fst (redDash (progress (c_player (fst (run_ui en component_init evs))))
                    (c_pathLen (fst (run_ui en component_init evs)))) /\
  fst (redDash (progress (c_player (fst (run_ui en component_init evs))))
               (c_pathLen (fst (run_ui en component_init evs))))
  <= snd (redDash (progress (c_player (fst (run_ui en component_init evs))))
                  (c_pathLen (fst (run_ui en component_init evs)))).
Proof.
  intros HD Hall.
  assert (H0 : comp_inv Dm component_init).
  { split; [apply player_inv_init; exact HD | unfold component_init; simpl; lra]. }
  destruct (comp_inv_run Dm en component_init evs HD H0 Hall) as [Hp HL].
  set (c := fst (run_ui en component_init evs)) in *.
  destruct (progress_bounds Dm (c_player c) Hp) as [Hp0 Hp1].
  split; [exact Hp0|]. split; [exact Hp1|].
  unfold redDash. simpl.
  apply toFixed2_nonneg_mono.
  - apply Qmult_le_0_compat; assumption.
  - pose proof (Qmult_le_compat_r _ _ (c_pathLen c) Hp1 HL). lra.
Qed.

Lemma red_dash_within_period_witness :
  0 <= 100 /\
  Forall (ui_ok 100) [UFrame 1000; UMedia (Loaded (Some 100)); UMedia (TimeUpdate (Some 25))] /\
  (0 <= progress (c_player (fst (run_ui (mkEnv true true top_edge_360 24) component_init
          [UFrame 1000; UMedia (Loaded (Some 100)); UMedia (TimeUpdate (Some 25))]))) /\
   progress (c_player (fst (run_ui (mkEnv true true top_edge_360 24) component_init
          [UFrame 1000; UMedia (Loaded (Some 100)); UMedia (TimeUpdate (Some 25))]))) <= 1 /\
   0 <= fst (redDash (progress (c_player (fst (run_ui (mkEnv true true top_edge_360 24)
          component_init
          [UFrame 1000; UMedia (Loaded (Some 100)); UMedia (TimeUpdate (Some 25))]))))
        (c_pathLen (fst (run_ui (mkEnv true true top_edge_360 24) component_init
          [UFrame 1000; UMedia (Loaded (Some 100)); UMedia (TimeUpdate (Some 25))])))) /\
   fst (redDash (progress (c_player (fst (run_ui (mkEnv true true top_edge_360 24)
          component_init
          [UFrame 1000; UMedia (Loaded (Some 100)); UMedia (TimeUpdate (Some 25))]))))
        (c_pathLen (fst (run_ui (mkEnv true true top_edge_360 24) component_init
          [UFrame 1000; UMedia (Loaded (Some 100)); UMedia (TimeUpdate (Some 25))]))))
   <= snd (redDash (progress (c_player (fst (run_ui (mkEnv true true top_edge_360 24)
          component_init
          [UFrame 1000; UMedia (Loaded (Some 100)); UMedia (TimeUpdate (Some 25))]))))
        (c_pathLen (fst (run_ui (mkEnv true true top_edge_360 24) component_init
          [UFrame 1000; UMedia (Loaded (Some 100)); UMedia (TimeUpdate (Some 25))]))))).
Proof.
  assert (HD : 0 <= 100) by (vm_compute; discriminate).
  assert (Hall : Forall (ui_ok 100)
    [UFrame 1000; UMedia (Loaded (Some 100)); UMedia (TimeUpdate (Some 25))]).
  { constructor; [simpl; vm_compute; discriminate|].
    constructor; [simpl; right; reflexivity|].
    constructor; [|constructor].
    simpl. right. exists 25. split; [reflexivity|]. split; vm_compute; discriminate. }
  split; [exact HD|]. split; [exact Hall|].
  exact (red_dash_within_period (mkEnv true true top_edge_360 24) 100 _ HD Hall).
Defined.

Ltac qabs_signs :=
  repeat match goal with
  | |- context [Qabs ?e] =>
      first [ rewrite (Qabs_pos e) by lra | rewrite (Qabs_neg e) by lra ]
  end.

(** X10: on a drawable square ([radius >= 0], [barWidth >= 0],
    [size >= 2 * pad]), the path walks four axis-parallel straight edges of
    total length [4 * (w - 2r)] and four quarter arcs of radius [r], each
    moving by exactly [r] horizontally and vertically, where [w] is the
    drawable width and [r] the effective radius. *)
Theorem path_edges_and_quarter_arcs (size radius barWidth : Q) :
  0 <= radius -> 0 <= barWidth -> pad barWidth * 2 <= size ->
  straight_total (0, 0) (d size radius barWidth)
    == 4 * ((size - pad barWidth * 2) - 2 * eff_radius size radius barWidth) /\
  lines_axis_parallel (0, 0) (d size radius barWidth) /\
  arcs_quarter (eff_radius size radius barWidth) (0, 0) (d size radius barWidth).
Proof.
  intros Hr Hb Hs.
  pose proof (pad_ge_2 barWidth Hb) as Hp.
  set (p := pad barWidth) in *.
  assert (Hw : 0 <= (size - p * 2) / 2)
    by (apply Qle_shift_div_l; [reflexivity | lra]).
  assert (Hw2 : (size - p * 2) / 2 * 2 == size - p * 2) by field.
  destruct (jsmin3_bounds radius ((size - p * 2) / 2) Hr Hw) as [Hr0 Hr1].
  assert (He : eff_radius size radius barWidth = jsmin3 radius ((size - p * 2) / 2)
                                                       ((size - p * 2) / 2))
    by reflexivity.
  rewrite He. unfold d. fold p.
  set (r := jsmin3 radius ((size - p * 2) / 2) ((size - p * 2) / 2)) in *.
  set (w := size - p * 2) in *.
  set (hw := w / 2) in *.
  cbn [straight_total lines_axis_parallel arcs_quarter seg_end fst snd].
  unfold step_len; cbn [fst snd].
  split; [qabs_signs; lra|].
  repeat match goal with
  | |- _ /\ _ => split
  | |- _ \/ _ => first [left; lra | right; lra]
  | |- True => exact I
  | |- ?a = ?a => reflexivity
  | |- _ => qabs_signs; lra
  end.
Qed.

Lemma path_edges_and_quarter_arcs_witness :
  0 <= 50 /\ 0 <= 24 /\ pad 24 * 2 <= 360 /\
  straight_total (0, 0) (d 360 50 24)
    == 4 * ((360 - pad 24 * 2) - 2 * eff_radius 360 50 24) /\
  lines_axis_parallel (0, 0) (d 360 50 24) /\
  arcs_quarter (eff_radius 360 50 24) (0, 0) (d 360 50 24).
Proof.
  assert (H1 : 0 <= 50) by (vm_compute; discriminate).
  assert (H2 : 0 <= 24) by (vm_compute; discriminate).
  assert (H3 : pad 24 * 2 <= 360) by (vm_compute; discriminate).
  split; [exact H1|]. split; [exact H2|]. split; [exact H3|].
  exact (path_edges_and_quarter_arcs 360 50 24 H1 H2 H3).
Defined.

Lemma run_ui_never_negative_time_witness :
  In (VSetTime 0) (snd (run_ui (mkEnv true true top_edge_360 24) component_init [UReplay]))
  /\ 0 <= 0.
Proof.
  assert (Hin : In (VSetTime 0)
    (snd (run_ui (mkEnv true true top_edge_360 24) component_init [UReplay])))
    by (simpl; left; reflexivity).
  split; [exact Hin|].
  exact (run_ui_never_negative_time (mkEnv true true top_edge_360 24) component_init
           [UReplay] 0 Hin).
Defined.
